(** * EcoCode backend: the hotspot analysis of [backend/main.py]

    A shallow embedding of the static analysis behind [POST /analyze]:
    the four detectors over a Python syntax tree, the score, category and
    reason text of a function, the energy and cost figures, and the
    aggregation into a sorted hotspot list. *)

From Stdlib Require Import ZArith Lia Floats Uint63 Sorted.
From stdpp Require Import base list strings gmap pretty.
From Equations Require Import Equations.

Local Open Scope Z_scope.
Set Warnings "-register-all".

(** ** The syntax tree

    The nodes of Python's [ast] module that the analysis tells apart; every
    other node kind is [Other] with its child nodes in field order.  The
    childless [expr_context] and operator singletons ([Load], [Store],
    [Add], ...) match no [isinstance] test on a walked node, so they are kept
    as data ([operator]) and not listed among the children. *)

Inductive operator : Type :=
| Add | Sub | Mult | MatMult | Div | Mod | Pow
| LShift | RShift | BitOr | BitXor | BitAnd | FloorDiv.

Inductive node : Type :=
| FunctionDef (name : string) (lineno end_lineno : option Z)
              (children : list node)
| For (children : list node)
| While (children : list node)
| Call (func : node) (args : list node)
| Attribute (value : node) (attr : string)
| Name (id : string)
| AugAssign (target : node) (op : operator) (value : node)
| Other (children : list node).

Global Instance operator_eq_dec : EqDecision operator.
Proof. solve_decision. Defined.

(** [ast.iter_child_nodes]. *)
Definition iter_child_nodes (n : node) : list node :=
  match n with
  | FunctionDef _ _ _ cs | For cs | While cs | Other cs => cs
  | Call f args => f :: args
  | Attribute v _ => [v]
  | Name _ => []
  | AugAssign t _ v => [t; v]
  end.

(** [isinstance(node, (ast.For, ast.While))]. *)
Definition is_loop (n : node) : bool :=
  match n with For _ | While _ => true | _ => false end.

(** [isinstance(node, ast.FunctionDef)]. *)
Definition is_FunctionDef (n : node) : bool :=
  match n with FunctionDef _ _ _ _ => true | _ => false end.

(** The [.name] attribute; [analyze] reads it on [FunctionDef] nodes only. *)
Definition node_name (n : node) : string :=
  match n with FunctionDef s _ _ _ => s | _ => "" end.

Fixpoint node_size (n : node) : nat :=
  let fix sizes (l : list node) : nat :=
    match l with [] => O | c :: l' => (node_size c + sizes l')%nat end in
  match n with
  | FunctionDef _ _ _ cs | For cs | While cs | Other cs => S (sizes cs)
  | Call f args => S (node_size f + sizes args)
  | Attribute v _ => S (node_size v)
  | Name _ => 1%nat
  | AugAssign t _ v => S (node_size t + node_size v)
  end.

Definition queue_size (todo : list node) : nat :=
  foldr (fun c acc => (node_size c + acc)%nat) O todo.

Lemma queue_size_app q r : queue_size (q ++ r) = (queue_size q + queue_size r)%nat.
Proof. induction q as [|c q IH]; simpl; [done | rewrite IH; lia]. Qed.

Lemma node_size_children n :
  node_size n = S (queue_size (iter_child_nodes n)).
Proof.
  assert (sizes : forall l : list node,
    (fix sizes (l : list node) : nat :=
       match l with [] => O | c :: l' => (node_size c + sizes l')%nat end) l
    = queue_size l).
  { induction l as [|c l IH]; simpl; congruence. }
  destruct n; simpl; rewrite ?sizes; lia.
Qed.

(** [ast.walk]: a queue seeded with the root; each step pops the leftmost
    node, queues its children on the right and yields the node. *)
Equations? walk_queue (todo : list node) : list node
  by wf (queue_size todo) lt :=
  walk_queue [] := [];
  walk_queue (n :: todo) := n :: walk_queue (todo ++ iter_child_nodes n).
Proof.
  rewrite queue_size_app, (node_size_children n). simpl. lia.
Qed.

Definition walk (n : node) : list node := walk_queue [n].

(** ** The four detectors *)

(** [get_max_loop_depth]: the inner [visit] threads the [nonlocal max_depth]
    through the traversal as an explicit state; [depth] is passed by value.
    The loop over [ast.iter_child_nodes(node)] is written out per node kind
    (see [visit_children] for the uniform reading). *)
Fixpoint visit (node : node) (depth : Z) (max_depth : Z) : Z :=
  let depth := if is_loop node then depth + 1 else depth in
  let max_depth := if is_loop node then Z.max max_depth depth else max_depth in
  let for_child :=
    foldl (fun max_depth child => visit child depth max_depth) in
  match node with
  | FunctionDef _ _ _ cs | For cs | While cs | Other cs => for_child max_depth cs
  | Call f args => for_child (visit f depth max_depth) args
  | Attribute v _ => visit v depth max_depth
  | Name _ => max_depth
  | AugAssign t _ v => visit v depth (visit t depth max_depth)
  end.

Definition get_max_loop_depth (func_node : node) : Z :=
  visit func_node 0 0.

(** [is_recursive]: the loop returns [True] at the first node that is a call
    of the bare name [fname], and [False] when the walk ends without one. *)
Definition calls_name (fname : string) (node : node) : bool :=
  match node with
  | Call (Name id) _ => bool_decide (id = fname)
  | _ => false
  end.

Definition is_recursive (func_node : node) : bool :=
  existsb (calls_name (node_name func_node)) (walk func_node).

Definition EXPENSIVE_FUNCS : gset string := {[ "sorted"; "open"; "print" ]}.

(** [list(set(found))]: the distinct labels of [found].  Python leaves the
    iteration order of a set open; the order [elements] picks is one of the
    possible ones, and no result below depends on it. *)
Definition list_of_set (found : list string) : list string :=
  elements (list_to_set found : gset string).

(** What one iteration of the loop of [detect_expensive_calls] appends. *)
Definition expensive_step (found : list string) (node : node) : list string :=
  match node with
  | Call func _ =>
      let found :=
        match func with
        | Name id =>
            if bool_decide (id ∈ EXPENSIVE_FUNCS) then found ++ [id] else found
        | _ => found
        end in
      match func with
      | Attribute _ attr =>
          if bool_decide (attr = "sort") then found ++ ["sort()"] else found
      | _ => found
      end
  | _ => found
  end.

Definition detect_expensive_calls (func_node : node) : list string :=
  list_of_set (foldl expensive_step [] (walk func_node)).

Definition CONCAT_ISSUE : string := "string concatenation in loop (+=)".
Definition APPEND_ISSUE : string := "list append in loop (.append)".

(** The body of the inner loop of [detect_loop_issues]. *)
Definition issue_step (issues : list string) (child : node) : list string :=
  let issues :=
    match child with
    | AugAssign _ Add _ => issues ++ [CONCAT_ISSUE]
    | _ => issues
    end in
  match child with
  | Call (Attribute _ attr) _ =>
      if bool_decide (attr = "append") then issues ++ [APPEND_ISSUE] else issues
  | _ => issues
  end.

(** The body of the outer loop: only loops are looked into. *)
Definition loop_step (issues : list string) (node : node) : list string :=
  if is_loop node then foldl issue_step issues (walk node) else issues.

Definition detect_loop_issues (func_node : node) : list string :=
  list_of_set (foldl loop_step [] (walk func_node)).

(** ** Python numbers and text *)

(** [float(z)] for an [int]; exact for [|z| <= 2^53], which covers every
    integer the program converts. *)
Definition float_of_int (z : Z) : float :=
  if z <? 0 then PrimFloat.opp (PrimFloat.of_uint63 (Uint63.of_Z (- z)))
  else PrimFloat.of_uint63 (Uint63.of_Z z).

(** The integer nearest to [m * 2^e * 10^ndigits], ties to even. *)
Definition scaled_half_even (m : positive) (e : Z) (ndigits : Z) : Z :=
  let num := Z.pos m * 10 ^ ndigits in
  if 0 <=? e then num * 2 ^ e
  else
    let den := 2 ^ (- e) in
    let q := num / den in
    let r := num mod den in
    match 2 * r ?= den with
    | Lt => q
    | Gt => q + 1
    | Eq => if Z.even q then q else q + 1
    end.

(** [round(x, ndigits)] on a [float] with [0 <= ndigits]: CPython writes [x]
    in decimal with [ndigits] digits after the point, correctly rounded
    (ties to even) from the exact binary value, and reads the digits back as
    the nearest double.  When the digit string [k] is below [2^53] and
    [ndigits <= 22], both [k] and [10^ndigits] are doubles and their IEEE
    quotient is that nearest double ([round_exact] tells when). *)
Definition py_round (x : float) (ndigits : Z) : float :=
  match Prim2SF x with
  | S754_finite s m e =>
      let k := scaled_half_even m e ndigits in
      let r := (float_of_int k / float_of_int (10 ^ ndigits))%float in
      if s then PrimFloat.opp r else r
  | _ => x
  end.

Definition round_exact (x : float) (ndigits : Z) : bool :=
  match Prim2SF x with
  | S754_finite _ m e =>
      (scaled_half_even m e ndigits <? 2 ^ 53) && (ndigits <=? 22)
  | _ => true
  end.

(** The one-character string written ["\n"] in Python. *)
Definition NEWLINE : string := String (Ascii.ascii_of_nat 10) "".

(** [str(v)] for an attribute holding an [int] or [None]. *)
Definition str_opt_int (v : option Z) : string :=
  match v with Some z => pretty z | None => "None" end.

(** A slice bound, as Python clamps it to [0 .. len]. *)
Definition slice_bound (len i : Z) : Z :=
  if i <? 0 then Z.max (i + len) 0 else Z.min i len.

(** [l[lo:hi]]. *)
Definition py_slice {A} (l : list A) (lo hi : Z) : list A :=
  let len := Z.of_nat (length l) in
  let lo := slice_bound len lo in
  let hi := slice_bound len hi in
  take (Z.to_nat (hi - lo)) (drop (Z.to_nat lo) l).

(** [list.sort(key=key, reverse=True)]: descending by key, and stable, so
    elements with equal keys keep their order.  An insertion sort that puts
    each element in front of the first one whose key is not larger. *)
Fixpoint insert_reverse {A} (key : A -> Z) (x : A) (l : list A) : list A :=
  match l with
  | [] => [x]
  | y :: l' =>
      if key x <? key y then y :: insert_reverse key x l' else x :: l
  end.

Definition sort_reverse {A} (key : A -> Z) (l : list A) : list A :=
  foldr (insert_reverse key) [] l.

(** ** Scoring one function *)

Record Hotspot : Type := {
  name : string;
  score : Z;
  category : string;
  reasons : list string;
  start_line : Z;
  end_line : Z;
  code_snippet : string;
  estimated_joules_per_run : float;
  estimated_cost_per_1000_runs : float;
  estimated_cost_per_1m_runs : float
}.

Definition ELECTRICITY_RATE_PER_KWH : float := 8%float.
(** The double written [0.05]. *)
Definition JOULES_PER_SCORE_POINT : float := 0x1.999999999999ap-5%float.

(** Lines 145-150. *)
Definition compute_score (loop_depth : Z) (recursive : bool)
    (expensive_calls loop_issues : list string) : Z :=
  let score := loop_depth * 12 in
  let score := if recursive then score + 20 else score in
  let score := score + Z.of_nat (length expensive_calls) * 15 in
  let score := score + Z.of_nat (length loop_issues) * 10 in
  Z.min score 100.

(** Lines 153-165. *)
Definition build_reasons (loop_depth : Z) (recursive : bool)
    (expensive_calls loop_issues : list string) : list string :=
  let reasons := [] in
  let reasons :=
    if 0 <? loop_depth
    then reasons ++ ["Loop nesting depth = " +:+ pretty loop_depth]
    else reasons in
  let reasons := if recursive then reasons ++ ["Recursion detected"] else reasons in
  let reasons :=
    match expensive_calls with
    | [] => reasons
    | _ => reasons ++ ["Expensive calls: " +:+ String.concat ", " expensive_calls]
    end in
  foldl (fun reasons issue => reasons ++ [issue]) reasons loop_issues.

(** Lines 171-176, with the branch that changes nothing kept. *)
Definition choose_category (loop_depth : Z) (recursive : bool)
    (expensive_calls : list string) : string :=
  if bool_decide ("open" ∈ expensive_calls) then "I/O"
  else if (2 <=? loop_depth) || recursive
          || bool_decide ("sorted" ∈ expensive_calls)
          || bool_decide ("sort()" ∈ expensive_calls) then "CPU"
  else "CPU".

(** Lines 179-187. *)
Definition joules_per_run (score : Z) : float :=
  py_round (float_of_int score * JOULES_PER_SCORE_POINT)%float 4.

Definition cost_per_run (estimated_joules_per_run : float) : float :=
  (estimated_joules_per_run / float_of_int 3600000
   * ELECTRICITY_RATE_PER_KWH)%float.

Definition cost_per_1000_runs (estimated_cost_per_run : float) : float :=
  py_round (estimated_cost_per_run * float_of_int 1000)%float 6.

Definition cost_per_1m_runs (estimated_cost_per_run : float) : float :=
  py_round (estimated_cost_per_run * float_of_int 1000000)%float 4.

(** The body of the loop over [function_nodes].  [getattr] falls back to 1
    and to [start_line] when the node carries no line number; slicing and
    joining strings cannot raise, so the snippet is always the joined slice. *)
Definition hotspot_of (code_lines : list string) (func : node) : Hotspot :=
  let loop_depth := get_max_loop_depth func in
  let recursive := is_recursive func in
  let expensive_calls := detect_expensive_calls func in
  let loop_issues := detect_loop_issues func in
  let start_line :=
    match func with FunctionDef _ (Some l) _ _ => l | _ => 1 end in
  let end_line :=
    match func with FunctionDef _ _ (Some l) _ => l | _ => start_line end in
  let code_snippet :=
    String.concat NEWLINE (py_slice code_lines (start_line - 1) end_line) in
  let score := compute_score loop_depth recursive expensive_calls loop_issues in
  let reasons := build_reasons loop_depth recursive expensive_calls loop_issues in
  let category := choose_category loop_depth recursive expensive_calls in
  let estimated_joules_per_run := joules_per_run score in
  let estimated_cost_per_run := cost_per_run estimated_joules_per_run in
  {| name := node_name func;
     score := score;
     category := category;
     reasons := reasons;
     start_line := start_line;
     end_line := end_line;
     code_snippet := code_snippet;
     estimated_joules_per_run := estimated_joules_per_run;
     estimated_cost_per_1000_runs := cost_per_1000_runs estimated_cost_per_run;
     estimated_cost_per_1m_runs := cost_per_1m_runs estimated_cost_per_run |}.

(** ** The endpoint *)

Record AnalyzeRequest : Type := {
  code : string;
  filename : option string
}.

Record Summary : Type := {
  summary_filename : option string;
  language : string;
  function_count : Z;
  hotspot_count : Z;
  electricity_rate_per_kwh : option float;
  note : string
}.

Record Response : Type := {
  summary : Summary;
  hotspots : list Hotspot;
  error : option string
}.

(** What [ast.parse] does with a source text: it returns a tree, raises
    [SyntaxError] (with its [lineno], possibly [None], and [msg]) or raises
    another [Exception] (with its [str]), such as [ValueError] on a null
    byte or [RecursionError] on deep nesting. *)
Inductive parse_outcome : Type :=
| Parsed (tree : node)
| RaisesSyntaxError (lineno : option Z) (msg : string)
| RaisesException (str : string).

Definition NOTE : string :=
  "Energy and cost are heuristic estimates from static analysis (not hardware power counters).".

Definition failure (req : AnalyzeRequest) (message : string) : Response :=
  {| summary :=
       {| summary_filename := filename req;
          language := "python";
          function_count := 0;
          hotspot_count := 0;
          electricity_rate_per_kwh := None;
          note := NOTE |};
     hotspots := [];
     error := Some message |}.

(** Lines 120-123. *)
Definition function_nodes (tree : node) : list node :=
  filter (fun node => is_FunctionDef node = true) (walk tree).

Section Endpoint.
(** The library functions [ast.parse] and [str.splitlines]. *)
Variable ast_parse : string -> parse_outcome.
Variable splitlines : string -> list string.

Definition analyze (req : AnalyzeRequest) : Response :=
  match ast_parse (code req) with
  | RaisesSyntaxError lineno msg =>
      failure req
        ("SyntaxError at line " +:+ str_opt_int lineno +:+ ": " +:+ msg)
  | RaisesException str =>
      failure req ("Invalid Python code: " +:+ str)
  | Parsed tree =>
      let function_nodes := function_nodes tree in
      let code_lines := splitlines (code req) in
      let hotspots := map (hotspot_of code_lines) function_nodes in
      let hotspots := sort_reverse score hotspots in
      {| summary :=
           {| summary_filename := filename req;
              language := "python";
              function_count := Z.of_nat (length function_nodes);
              hotspot_count := Z.of_nat (length hotspots);
              electricity_rate_per_kwh := Some ELECTRICITY_RATE_PER_KWH;
              note := NOTE |};
         hotspots := hotspots;
         error := None |}
  end.
End Endpoint.

(** ** Notions the results are stated with *)

(** [subnode n t]: [n] is [t] or one of its descendants. *)
Inductive subnode (n : node) : node -> Prop :=
| subnode_self : subnode n n
| subnode_child c t :
    c ∈ iter_child_nodes t -> subnode n c -> subnode n t.

(** Depth-first, pre-order listing of a tree. *)
Fixpoint preorder (n : node) : list node :=
  n :: match n with
       | FunctionDef _ _ _ cs | For cs | While cs | Other cs =>
           concat (map preorder cs)
       | Call f args => preorder f ++ concat (map preorder args)
       | Attribute v _ => preorder v
       | Name _ => []
       | AugAssign t _ v => preorder t ++ preorder v
       end.

(** The nodes one level below those of [q], left to right. *)
Definition next_level (q : list node) : list node :=
  concat (map iter_child_nodes q).

(** Breadth-first listing: [h] levels, starting with the nodes of [q]. *)
Fixpoint level_order (h : nat) (q : list node) : list node :=
  match h with
  | O => []
  | S h' => q ++ level_order h' (next_level q)
  end.

Fixpoint height (n : node) : nat :=
  let fix heights (l : list node) : nat :=
    match l with [] => O | c :: l' => Nat.max (height c) (heights l') end in
  match n with
  | FunctionDef _ _ _ cs | For cs | While cs | Other cs => S (heights cs)
  | Call f args => S (Nat.max (height f) (heights args))
  | Attribute v _ => S (height v)
  | Name _ => 1%nat
  | AugAssign t _ v => S (Nat.max (height t) (height v))
  end.

Definition max_height (q : list node) : nat :=
  foldr (fun c acc => Nat.max (height c) acc) O q.

(** [path t p]: [p] lists the nodes met going down from [t], each a child
    of the one before. *)
Inductive path : node -> list node -> Prop :=
| path_root t : path t [t]
| path_step t c p : c ∈ iter_child_nodes t -> path c p -> path t (t :: p).

(** The number of [For] and [While] nodes on a path. *)
Definition loops_on (p : list node) : Z :=
  Z.of_nat (length (filter (fun n => is_loop n = true) p)).

Definition visit_ok (c : node) : Prop :=
  forall d m, d <= m ->
    m <= visit c d m /\
    (forall p, path c p -> d + loops_on p <= visit c d m) /\
    (visit c d m = m \/ exists p, path c p /\ d + loops_on p = visit c d m).

(** Keys never increase from left to right. *)
Definition descending {A} (key : A -> Z) : list A -> Prop :=
  StronglySorted (fun a b => key b <= key a).

Definition is_def (n : node) : Prop := is_FunctionDef n = true.

(** The four quantities computed from a score: joules, cost per run, cost
    per 1000 runs and cost per million runs. *)
Definition energy_of (score : Z) : float * float * float * float :=
  let joules := joules_per_run score in
  let cost := cost_per_run joules in
  (joules, cost, cost_per_1000_runs cost, cost_per_1m_runs cost).

(** Every rounding stays where [py_round] is exact and every result is a
    finite number. *)
Definition energy_defined (score : Z) : bool :=
  let '(joules, cost, per_1000, per_1m) := energy_of score in
  round_exact (float_of_int score * JOULES_PER_SCORE_POINT)%float 4
  && round_exact (cost * float_of_int 1000)%float 6
  && round_exact (cost * float_of_int 1000000)%float 4
  && is_finite joules && is_finite cost
  && is_finite per_1000 && is_finite per_1m.

Definition energy_leb (a b : float * float * float * float) : bool :=
  let '(j1, c1, k1, m1) := a in
  let '(j2, c2, k2, m2) := b in
  PrimFloat.leb j1 j2 && PrimFloat.leb c1 c2
  && PrimFloat.leb k1 k2 && PrimFloat.leb m1 m2.

(** The check of all pairs of scores from 0 to 100. *)
Definition energy_row_ok (s1 : Z) : bool :=
  let e1 := energy_of s1 in
  energy_defined s1 &&
  forallb (fun s2 => if s2 <? s1 then true else energy_leb e1 (energy_of s2))
          (seqZ 0 101).

(** The largest loop depth among the trees of [cs], 0 for none. *)
Definition max_depth_of (cs : list node) : Z :=
  foldr (fun c acc => Z.max (get_max_loop_depth c) acc) 0 cs.

(** The labels [detect_expensive_calls] can report. *)
Definition EXPENSIVE_LABELS : list string :=
  ["sorted"; "open"; "print"; "sort()"].

(** ** Sample functions *)

(** The [arguments] node of a function definition. *)
Definition arguments : node := Other [].

(** [def name(): body], spanning the given lines. *)
Definition def (name : string) (lineno end_lineno : Z) (body : list node) : node :=
  FunctionDef name (Some lineno) (Some end_lineno) (arguments :: body).

(** [def f(): while a: while b: while c: pass] *)
Definition three_whiles : node :=
  def "f" 1 4
    [While [Name "a"; While [Name "b"; While [Name "c"; Other []]]]].

(** [def f(n): return f(n - 1)] *)
Definition calls_itself : node :=
  def "f" 1 2 [Other [Call (Name "f") [Other [Name "n"; Other []]]]].

(** [def f(obj): return obj.f()] *)
Definition calls_method : node :=
  def "f" 1 2 [Other [Call (Attribute (Name "obj") "f") []]].

(** [def f(a, b): x = sorted(a); y = sorted(b)] *)
Definition sorts_twice : node :=
  def "f" 1 3
    [Other [Name "x"; Call (Name "sorted") [Name "a"]];
     Other [Name "y"; Call (Name "sorted") [Name "b"]]].

(** [def f(xs): for i in xs: for j in xs: out.append(j)] *)
Definition nested_append : node :=
  def "f" 1 4
    [For [Name "i"; Name "xs";
          For [Name "j"; Name "xs";
               Other [Call (Attribute (Name "out") "append") [Name "j"]]]]].

(** [def f(p): return open(p)] *)
Definition reads_file : node :=
  def "f" 1 2 [Other [Call (Name "open") [Name "p"]]].

(** [def outer(): def inner(): while a: pass] *)
Definition inner_def : node := def "inner" 2 4 [While [Name "a"; Other []]].
Definition loop_in_inner_def : node := def "outer" 1 4 [inner_def].

(** The module [def a(): def b(): pass] followed by [def c(): pass]. *)
Definition two_levels : node :=
  Other [def "a" 1 3 [def "b" 2 3 [Other []]]; def "c" 4 5 [Other []]].

(** * Properties *)

(** ** Running the samples *)

Example three_whiles_depth : get_max_loop_depth three_whiles = 3.
Proof. reflexivity. Qed.

Example walk_two_levels :
  map node_name (function_nodes two_levels) = ["a"; "c"; "b"].
Proof. vm_compute. reflexivity. Qed.

Example nested_append_reasons :
  reasons (hotspot_of [] nested_append)
  = ["Loop nesting depth = 2"; APPEND_ISSUE].
Proof. vm_compute. reflexivity. Qed.

Example reads_file_hotspot :
  let h := hotspot_of ["def f(p):"; "    return open(p)"] reads_file in
  score h = 15 /\ category h = "I/O" /\
  reasons h = ["Expensive calls: open"] /\
  code_snippet h = "def f(p):" +:+ NEWLINE +:+ "    return open(p)".
Proof. vm_compute. repeat split. Qed.

Example sort_reverse_10_90_50 : sort_reverse id [10; 90; 50] = [90; 50; 10].
Proof. reflexivity. Qed.

Example unterminated_header :
  error (analyze (fun _ => RaisesSyntaxError (Some 1) "'(' was never closed")
                 (fun _ => []) {| code := "def f(:"; filename := None |})
  = Some "SyntaxError at line 1: '(' was never closed".
Proof. reflexivity. Qed.

(** ** Induction on trees and the shape of [visit] *)

(** Structural induction on trees, with the hypothesis on every child. *)
Lemma node_children_ind (P : node -> Prop) :
  (forall n, Forall P (iter_child_nodes n) -> P n) -> forall n, P n.
Proof.
  intros step.
  fix IH 1. intros n. apply step.
  destruct n; simpl; repeat constructor; try apply IH.
  all: try (induction children as [|c cs IHcs]; constructor; [apply IH | exact IHcs]).
  induction args as [|c cs IHcs]; constructor; [apply IH | exact IHcs].
Qed.

Lemma visit_children node depth max_depth :
  visit node depth max_depth =
  let depth := if is_loop node then depth + 1 else depth in
  let max_depth := if is_loop node then Z.max max_depth depth else max_depth in
  foldl (fun max_depth child => visit child depth max_depth)
        max_depth (iter_child_nodes node).
Proof. destruct node; reflexivity. Qed.

(** ** Traversal order and descendants *)

Lemma preorder_children n :
  preorder n = n :: concat (map preorder (iter_child_nodes n)).
Proof.
  destruct n; simpl; rewrite ?app_nil_r; reflexivity.
Qed.

Lemma height_children n : height n = S (max_height (iter_child_nodes n)).
Proof.
  assert (heights : forall l : list node,
    (fix heights (l : list node) : nat :=
       match l with [] => O | c :: l' => Nat.max (height c) (heights l') end) l
    = max_height l).
  { induction l as [|c l IH]; simpl; congruence. }
  destruct n; simpl; rewrite ?heights; lia.
Qed.

Lemma max_height_app q r :
  max_height (q ++ r) = Nat.max (max_height q) (max_height r).
Proof. induction q as [|c q IH]; simpl; [done | rewrite IH; lia]. Qed.

Lemma max_height_next_level q h :
  (max_height q <= S h)%nat -> (max_height (next_level q) <= h)%nat.
Proof.
  induction q as [|c q IH]; simpl; intros Hq; [lia |].
  unfold next_level in *. simpl. rewrite max_height_app.
  rewrite (height_children c) in Hq.
  apply Nat.max_lub; [lia | apply IH; lia].
Qed.

(** Popping the whole front [q] of the queue leaves the children of [q]
    queued behind the rest. *)
Lemma walk_queue_app q r :
  walk_queue (q ++ r) = q ++ walk_queue (r ++ next_level q).
Proof.
  revert r. induction q as [|n q IH]; intros r.
  - unfold next_level. simpl. by rewrite app_nil_r.
  - simpl. simp walk_queue. rewrite <- app_assoc, IH.
    unfold next_level. simpl. by rewrite <- !app_assoc.
Qed.

Lemma walk_queue_level q : walk_queue q = q ++ walk_queue (next_level q).
Proof. rewrite <- (app_nil_r q) at 1. by rewrite walk_queue_app. Qed.

Lemma walk_queue_level_order h q :
  (max_height q <= h)%nat -> walk_queue q = level_order h q.
Proof.
  revert q. induction h as [|h IH]; intros q Hq.
  - destruct q as [|c q]; [by simp walk_queue |].
    simpl in Hq. rewrite (height_children c) in Hq. lia.
  - simpl. rewrite walk_queue_level. f_equal.
    by apply IH, max_height_next_level.
Qed.

Lemma walk_queue_perm q : walk_queue q ≡ₚ concat (map preorder q).
Proof.
  remember (queue_size q) as k eqn:Hk. revert q Hk.
  induction (lt_wf k) as [k _ IH]. intros [|n q] ->.
  - by simp walk_queue.
  - simp walk_queue.
    change (concat (map preorder (n :: q)))
      with (preorder n ++ concat (map preorder q)).
    rewrite (preorder_children n). simpl. constructor.
    rewrite (IH (queue_size (q ++ iter_child_nodes n))) by
      (try reflexivity; rewrite queue_size_app; simpl;
       rewrite (node_size_children n); lia).
    rewrite map_app, concat_app. apply Permutation_app_comm.
Qed.

Lemma walk_perm t : walk t ≡ₚ preorder t.
Proof. unfold walk. rewrite walk_queue_perm. simpl. by rewrite app_nil_r. Qed.

Lemma elem_of_concat_map {A B} (f : A -> list B) (l : list A) (y : B) :
  y ∈ concat (map f l) <-> exists x, x ∈ l /\ y ∈ f x.
Proof.
  induction l as [|a l IH]; simpl.
  - split; [by intros ?%elem_of_nil | by intros (? & ?%elem_of_nil & _)].
  - rewrite elem_of_app, IH. split.
    + intros [Hy | (x & Hx & Hy)]; [exists a | exists x];
        (split; [|done]); [left | by right].
    + intros (x & [-> | Hx]%elem_of_cons & Hy); eauto.
Qed.

Lemma elem_of_preorder n t : n ∈ preorder t <-> subnode n t.
Proof.
  split.
  - revert n. induction t as [t IH] using node_children_ind. intros n.
    rewrite preorder_children, elem_of_cons. intros [-> | Hin]; [constructor |].
    apply elem_of_concat_map in Hin as (c & Hc & Hn).
    rewrite Forall_forall in IH. eauto using subnode.
  - induction 1 as [|c t Hc _ IH]; rewrite preorder_children.
    + left.
    + right. apply elem_of_concat_map. eauto.
Qed.

Lemma elem_of_walk n t : n ∈ walk t <-> subnode n t.
Proof. by rewrite walk_perm, elem_of_preorder. Qed.

Lemma subnode_trans a b c : subnode a b -> subnode b c -> subnode a c.
Proof. induction 2; eauto using subnode. Qed.

(** ** Loop depth *)

Lemma loops_on_cons n p :
  loops_on (n :: p) = (if is_loop n then 1 else 0) + loops_on p.
Proof.
  unfold loops_on. rewrite filter_cons.
  destruct (is_loop n); simpl; [|done].
  destruct (decide (true = true)); [simpl; lia | done].
Qed.

Lemma visit_each_child cs d :
  Forall visit_ok cs ->
  forall m, d <= m ->
    let r := foldl (fun max_depth child => visit child d max_depth) m cs in
    m <= r /\
    (forall c p, c ∈ cs -> path c p -> d + loops_on p <= r) /\
    (r = m \/ exists c p, c ∈ cs /\ path c p /\ d + loops_on p = r).
Proof.
  induction 1 as [|c cs Hc _ IH]; intros m Hdm; simpl.
  - split; [lia |]. split; [|by left]. by intros c p ?%elem_of_nil.
  - destruct (Hc d m Hdm) as (Hm & Hup & Hex).
    destruct (IH (visit c d m) ltac:(lia)) as (Hm' & Hup' & Hex').
    split; [lia |]. split.
    + intros c' p [-> | Hin]%elem_of_cons Hp; [|by eauto].
      specialize (Hup p Hp). lia.
    + destruct Hex' as [Heq | (c' & p & Hin & Hp & Heq)].
      * rewrite Heq. destruct Hex as [-> | (p & Hp & Heq')]; [by left |].
        right. exists c, p. split; [left | done].
      * right. exists c', p. split; [by right | done].
Qed.

Lemma visit_sound n : visit_ok n.
Proof.
  induction n as [n IH] using node_children_ind. intros d m Hdm.
  rewrite visit_children. cbv zeta.
  set (d' := if is_loop n then d + 1 else d).
  set (m' := if is_loop n then Z.max m d' else m).
  assert (Hd' : d' = d + loops_on [n]).
  { rewrite loops_on_cons. unfold d', loops_on. simpl. destruct (is_loop n); lia. }
  assert (Hm' : m <= m' /\ d' <= m').
  { unfold m', d'. destruct (is_loop n); lia. }
  destruct (visit_each_child _ d' IH m' ltac:(lia)) as (Hr & Hup & Hex).
  cbv zeta in Hr, Hup, Hex.
  set (r := foldl _ m' _) in *.
  split; [lia |]. split.
  - intros p Hp. inversion Hp as [|? c p' Hc Hp']; subst; [lia |].
    specialize (Hup c p' Hc Hp'). rewrite loops_on_cons.
    rewrite loops_on_cons in Hd'. unfold loops_on in Hd'. simpl in Hd'. lia.
  - destruct Hex as [Heq | (c & p & Hc & Hp & Heq)].
    + rewrite Heq. unfold m'. destruct (is_loop n) eqn:Hl; [|by left].
      destruct (Z.max_spec m d') as [[_ ->] | [_ ->]].
      * right. exists [n]. split; [constructor | lia].
      * by left.
    + right. exists (n :: p). split; [by econstructor |].
      rewrite loops_on_cons. rewrite loops_on_cons in Hd'.
      unfold loops_on in Hd'. simpl in Hd'. lia.
Qed.

Lemma loops_on_nonneg p : 0 <= loops_on p.
Proof. unfold loops_on. lia. Qed.

Lemma path_subnode t p n : path t p -> n ∈ p -> subnode n t.
Proof.
  induction 1 as [t | t c p Hc Hp IH].
  - intros ->%list_elem_of_singleton. constructor.
  - intros [-> | Hin]%elem_of_cons; [constructor | eauto using subnode].
Qed.

Lemma loops_on_zero p :
  (forall n, n ∈ p -> is_loop n = false) -> loops_on p = 0.
Proof.
  induction p as [|n p IH]; intros Hp; [done |].
  rewrite loops_on_cons, IH.
  - rewrite (Hp n) by left. done.
  - intros n' Hn'. apply Hp. by right.
Qed.

Lemma loops_on_app q p : loops_on (q ++ p) = loops_on q + loops_on p.
Proof.
  induction q as [|n q IH]; [done |].
  change ((n :: q) ++ p) with (n :: (q ++ p)). rewrite !loops_on_cons, IH. lia.
Qed.

Lemma path_extend c t p :
  subnode c t -> path c p -> exists q, path t (q ++ p).
Proof.
  induction 1 as [|c' t Hc _ IH]; intros Hp.
  - by exists [].
  - destruct (IH Hp) as (q & Hq). exists (t :: q). simpl. by econstructor.
Qed.

Lemma get_max_loop_depth_upper func_node p :
  path func_node p -> loops_on p <= get_max_loop_depth func_node.
Proof.
  intros Hp. destruct (visit_sound func_node 0 0 ltac:(lia)) as (_ & Hup & _).
  specialize (Hup p Hp). unfold get_max_loop_depth. lia.
Qed.

Lemma get_max_loop_depth_reached func_node :
  exists p, path func_node p /\ loops_on p = get_max_loop_depth func_node.
Proof.
  destruct (visit_sound func_node 0 0 ltac:(lia)) as (_ & _ & [Heq | Hex]).
  - exists [func_node]. split; [constructor |].
    pose proof (get_max_loop_depth_upper func_node [func_node] (path_root _)).
    pose proof (loops_on_nonneg [func_node]).
    unfold get_max_loop_depth in *. lia.
  - destruct Hex as (p & Hp & Heq). exists p. split; [done |].
    unfold get_max_loop_depth. lia.
Qed.

Lemma get_max_loop_depth_nonneg func_node : 0 <= get_max_loop_depth func_node.
Proof.
  destruct (visit_sound func_node 0 0 ltac:(lia)) as (H & _). exact H.
Qed.

(** C3 as the spec states it fails: the body of [outer] is nothing but the
    definition of [inner], the only loop stands inside [inner], and the
    loop depth reported for [outer] is 1, not 0. *)
Lemma loop_in_nested_def_raises_depth :
  iter_child_nodes loop_in_inner_def = [arguments; inner_def] /\
  (forall n, subnode n loop_in_inner_def -> is_loop n = true -> subnode n inner_def) /\
  get_max_loop_depth loop_in_inner_def = 1.
Proof.
  split; [reflexivity |]. split; [|reflexivity].
  intros n Hn%elem_of_preorder Hloop. apply elem_of_preorder.
  vm_compute in Hn.
  repeat (apply elem_of_cons in Hn as [-> | Hn]); try discriminate Hloop;
    [|by apply elem_of_nil in Hn].
  vm_compute. right. right. left.
Qed.

(** C3, amended: [get_max_loop_depth] is the largest number of [For] and
    [While] nodes on a path from the function node down to any node of its
    subtree (so siblings share nothing); it is 0 without loops; and no other
    node kind resets or adds to the count: in particular the loops inside a
    nested function definition count for the enclosing function, whose depth
    is at least that of each function nested in it. *)
Theorem loop_depth_is_max_loops_on_a_path (func_node : node) :
  (exists p, path func_node p /\ loops_on p = get_max_loop_depth func_node) /\
  (forall p, path func_node p -> loops_on p <= get_max_loop_depth func_node) /\
  ((forall n, subnode n func_node -> is_loop n = false) ->
   get_max_loop_depth func_node = 0) /\
  (forall n, subnode n func_node ->
             get_max_loop_depth n <= get_max_loop_depth func_node) /\
  (forall name l e cs d m,
      visit (FunctionDef name l e cs) d m = visit (Other cs) d m).
Proof.
  split; [apply get_max_loop_depth_reached |].
  split; [apply get_max_loop_depth_upper |].
  split; [|split; [|reflexivity]].
  - intros Hno. destruct (get_max_loop_depth_reached func_node) as (p & Hp & <-).
    apply loops_on_zero. intros n Hn. eapply Hno, path_subnode; eauto.
  - intros n Hn. destruct (get_max_loop_depth_reached n) as (p & Hp & <-).
    destruct (path_extend _ _ _ Hn Hp) as (q & Hq).
    pose proof (get_max_loop_depth_upper _ _ Hq) as Hle.
    rewrite loops_on_app in Hle. pose proof (loops_on_nonneg q). lia.
Qed.

(** ** Score, reasons and category *)

(** C1: the score of an analysed function is the capped weighted sum of its
    four signals, lies in [0,100], does not decrease when a signal grows,
    and is 0 with no reasons when every signal is empty. *)
Theorem score_is_capped_weighted_sum (code_lines : list string) (func : node) :
  let h := hotspot_of code_lines func in
  score h = Z.min 100
              (get_max_loop_depth func * 12
               + (if is_recursive func then 20 else 0)
               + 15 * Z.of_nat (length (detect_expensive_calls func))
               + 10 * Z.of_nat (length (detect_loop_issues func))) /\
  0 <= score h <= 100 /\
  (forall d d' (r r' : bool) (e e' i i' : list string),
      d <= d' -> (r = true -> r' = true) ->
      (length e <= length e')%nat -> (length i <= length i')%nat ->
      compute_score d r e i <= compute_score d' r' e' i') /\
  (get_max_loop_depth func = 0 -> is_recursive func = false ->
   detect_expensive_calls func = [] -> detect_loop_issues func = [] ->
   score h = 0 /\ reasons h = []).
Proof.
  cbv zeta. pose proof (get_max_loop_depth_nonneg func) as Hd.
  unfold hotspot_of, compute_score; simpl.
  split; [destruct (is_recursive func); lia |].
  split; [destruct (is_recursive func); lia |].
  split.
  - intros d d' r r' e e' i i' Hdd Hr He Hi.
    destruct r, r'; try (specialize (Hr eq_refl); discriminate); lia.
  - intros -> -> -> ->. split; reflexivity.
Qed.

(** C2 as the spec states it fails: a function that calls [open] has
    ["open"] among its expensive calls, and its category is not the string
    ["IO"]. *)
Lemma category_of_open_is_not_IO :
  "open" ∈ detect_expensive_calls reads_file /\
  category (hotspot_of [] reads_file) <> "IO".
Proof. split; [by vm_compute; left | by vm_compute]. Qed.

(** C2, amended: the category is the string ["I/O"] exactly when ["open"] is
    among the expensive calls and ["CPU"] otherwise; it is a function of the
    signals that looks at nothing but the presence of ["open"]. *)
Theorem category_is_IO_iff_open (code_lines : list string) (func : node) :
  let h := hotspot_of code_lines func in
  (category h = "I/O" <-> "open" ∈ detect_expensive_calls func) /\
  (category h = "CPU" <-> "open" ∉ detect_expensive_calls func) /\
  category h = choose_category (get_max_loop_depth func) (is_recursive func)
                               (detect_expensive_calls func) /\
  (forall d d' r r' (e e' : list string),
      ("open" ∈ e <-> "open" ∈ e') ->
      choose_category d r e = choose_category d' r' e').
Proof.
  cbv zeta. unfold hotspot_of; simpl.
  assert (Hcat : forall d r (e : list string),
             choose_category d r e = if bool_decide ("open" ∈ e) then "I/O" else "CPU").
  { intros d r e. unfold choose_category.
    destruct (bool_decide ("open" ∈ e)); [done |].
    by destruct (_ || _ || _ || _). }
  split; [|split; [|split; [done |]]].
  - rewrite Hcat. case_bool_decide; [done |]. split; [discriminate | done].
  - rewrite Hcat. case_bool_decide; [|done]. split; [discriminate | done].
  - intros d d' r r' e e' Hee. rewrite !Hcat.
    by rewrite (bool_decide_ext _ _ Hee).
Qed.

(** ** Sorting the hotspots *)

Section SortReverse.
Context {A : Type} (key : A -> Z).

Lemma insert_reverse_perm x l : insert_reverse key x l ≡ₚ x :: l.
Proof.
  induction l as [|y l IH]; simpl; [done |].
  destruct (key x <? key y); [|done].
  rewrite IH. apply Permutation_swap.
Qed.

Lemma insert_reverse_descending x l :
  descending key l -> descending key (insert_reverse key x l).
Proof.
  induction 1 as [|y l Hl IH Hy]; simpl.
  - repeat constructor.
  - destruct (key x <? key y) eqn:Hxy.
    + apply Z.ltb_lt in Hxy. constructor; [exact IH |].
      rewrite insert_reverse_perm. constructor; [lia | exact Hy].
    + apply Z.ltb_ge in Hxy. constructor; [by constructor |].
      constructor; [lia |].
      eapply Forall_impl; [exact Hy |]. simpl. intros; lia.
Qed.

(** Inserting never moves an element past one with the same key. *)
Lemma insert_reverse_stable k x l :
  filter (fun a => key a = k) (insert_reverse key x l)
  = filter (fun a => key a = k) (x :: l).
Proof.
  induction l as [|y l IH]; simpl; [done |].
  destruct (key x <? key y) eqn:Hxy; [|done].
  apply Z.ltb_lt in Hxy.
  rewrite (filter_cons _ y), IH, !filter_cons.
  destruct (decide (key y = k)), (decide (key x = k)); try done; lia.
Qed.

Lemma sort_reverse_perm l : sort_reverse key l ≡ₚ l.
Proof.
  induction l as [|x l IH]; simpl; [done |].
  by rewrite insert_reverse_perm, IH.
Qed.

Lemma sort_reverse_descending l : descending key (sort_reverse key l).
Proof.
  induction l as [|x l IH]; simpl; [constructor |].
  by apply insert_reverse_descending.
Qed.

Lemma sort_reverse_stable k l :
  filter (fun a => key a = k) (sort_reverse key l)
  = filter (fun a => key a = k) l.
Proof.
  induction l as [|x l IH]; simpl; [done |].
  by rewrite insert_reverse_stable, !filter_cons, IH.
Qed.

Lemma sort_reverse_length l : length (sort_reverse key l) = length l.
Proof. by rewrite sort_reverse_perm. Qed.

(** A descending list is determined by its elements of each key taken in
    order, so every stable descending sort returns what [sort_reverse]
    returns. *)
Lemma descending_stable_unique l1 l2 :
  descending key l1 -> descending key l2 ->
  (forall k, filter (fun a => key a = k) l1 = filter (fun a => key a = k) l2) ->
  l1 = l2.
Proof.
  intros H1. revert l2. induction H1 as [|x l1 Hl1 IH Hx]; intros l2 H2 Heq.
  - destruct l2 as [|y l2]; [done |].
    specialize (Heq (key y)). rewrite filter_cons in Heq.
    by destruct (decide (key y = key y)).
  - destruct H2 as [|y l2 Hl2 Hy].
    { specialize (Heq (key x)). rewrite filter_cons in Heq.
      by destruct (decide (key x = key x)). }
    assert (Hkey : key x = key y).
    { pose proof (Heq (key x)) as Ex. pose proof (Heq (key y)) as Ey.
      rewrite !filter_cons in Ex, Ey.
      destruct (decide (key x = key x)); [|done].
      destruct (decide (key y = key y)); [|done].
      destruct (decide (key y = key x)); [done |].
      destruct (decide (key x = key y)); [done |].
      assert (Hin : x ∈ y :: l2).
      { right. eapply (list_elem_of_filter (fun a => key a = key x)).
        rewrite <- Ex. left. }
      assert (Hin' : y ∈ x :: l1).
      { right. eapply (list_elem_of_filter (fun a => key a = key y)).
        rewrite Ey. left. }
      apply elem_of_cons in Hin as [-> | Hin]; [done |].
      apply elem_of_cons in Hin' as [-> | Hin']; [done |].
      rewrite Forall_forall in Hx, Hy.
      specialize (Hx _ Hin'). specialize (Hy _ Hin). lia. }
    assert (x = y) as <-.
    { specialize (Heq (key x)). rewrite !filter_cons in Heq.
      destruct (decide (key x = key x)); [|done].
      destruct (decide (key y = key x)); [|congruence].
      congruence. }
    f_equal. apply IH; [done |]. intros k. specialize (Heq k).
    rewrite !filter_cons in Heq. destruct (decide (key x = k)); congruence.
Qed.
End SortReverse.

(** ** Function extraction *)

(** C4 as the spec states it fails: in a module that defines [a] (with [b]
    nested in it) and then [c], the functions are extracted in the order
    a, c, b, whereas depth-first pre-order lists them as a, b, c. *)
Lemma function_nodes_not_depth_first :
  map node_name (function_nodes two_levels) = ["a"; "c"; "b"] /\
  map node_name (filter is_def (preorder two_levels)) = ["a"; "b"; "c"].
Proof. split; vm_compute; reflexivity. Qed.

(** C4, amended: extraction yields one entry per [FunctionDef] node of the
    tree, nested ones included, in breadth-first order (by nesting level,
    left to right within a level); it is empty when the tree has no function
    definition, and it is total. *)
Theorem function_nodes_breadth_first (tree : node) :
  function_nodes tree = filter is_def (level_order (height tree) [tree]) /\
  function_nodes tree ≡ₚ filter is_def (preorder tree) /\
  (forall n, n ∈ function_nodes tree <-> subnode n tree /\ is_def n) /\
  ((forall n, subnode n tree -> ~ is_def n) -> function_nodes tree = []).
Proof.
  unfold function_nodes. fold is_def.
  assert (Hmem : forall n, n ∈ filter is_def (walk tree) <-> subnode n tree /\ is_def n).
  { intros n. rewrite list_elem_of_filter, elem_of_walk. tauto. }
  split; [|split; [|split; [exact Hmem |]]].
  - unfold walk. rewrite (walk_queue_level_order (height tree)); [done |].
    simpl. lia.
  - by rewrite walk_perm.
  - intros Hno. apply elem_of_nil_inv. intros n [Hs Hd]%Hmem.
    by apply (Hno n).
Qed.

(** ** The result of [analyze] *)

(** C5: after a successful parse the hotspot list holds the per-function
    records, sorted by score in descending order with records of equal score
    in discovery order (no other list is so ordered), and both counts equal
    the number of extracted function definitions. *)
Theorem hotspots_sorted_by_score_stable
    (ast_parse : string -> parse_outcome) (splitlines : string -> list string)
    (req : AnalyzeRequest) (tree : node) :
  ast_parse (code req) = Parsed tree ->
  let result := analyze ast_parse splitlines req in
  let records := map (hotspot_of (splitlines (code req))) (function_nodes tree) in
  hotspots result ≡ₚ records /\
  descending score (hotspots result) /\
  (forall s, filter (fun h => score h = s) (hotspots result)
             = filter (fun h => score h = s) records) /\
  (forall l, descending score l ->
             (forall s, filter (fun h => score h = s) l
                        = filter (fun h => score h = s) records) ->
             hotspots result = l) /\
  function_count (summary result) = Z.of_nat (length (function_nodes tree)) /\
  hotspot_count (summary result) = function_count (summary result) /\
  hotspot_count (summary result) = Z.of_nat (length (hotspots result)).
Proof.
  intros Hparse. cbv zeta. unfold analyze. rewrite Hparse. simpl.
  split; [apply sort_reverse_perm |].
  split; [apply sort_reverse_descending |].
  split; [intros s; apply sort_reverse_stable |].
  split.
  - intros l Hl Hst. apply (descending_stable_unique score).
    + apply sort_reverse_descending.
    + exact Hl.
    + intros s. by rewrite sort_reverse_stable, Hst.
  - by rewrite sort_reverse_length, length_map.
Qed.

(** The module of [two_levels] parses to three functions, so both counts
    are 3. *)
Lemma hotspots_sorted_by_score_stable_witness :
  let parse := fun _ : string => Parsed two_levels in
  let lines := fun _ : string => @nil string in
  let req := {| code := "def a(): ..."; filename := Some "main.py" |} in
  function_count (summary (analyze parse lines req)) = 3 /\
  hotspot_count (summary (analyze parse lines req)) = 3.
Proof.
  cbv zeta.
  pose proof (hotspots_sorted_by_score_stable
                (fun _ => Parsed two_levels) (fun _ => [])
                {| code := "def a(): ..."; filename := Some "main.py" |}
                two_levels eq_refl) as H.
  cbv zeta in H.
  destruct H as (_ & _ & _ & _ & Hf & Hh & _).
  split; [exact Hf | rewrite Hh; exact Hf].
Defined.

(** C6: when [ast.parse] raises, [analyze] returns a result with both counts
    0, no hotspots and an error text: for a [SyntaxError] the line number and
    the message, for any other exception its message; when parsing succeeds
    the result has no error. *)
Theorem parse_failure_is_reported
    (ast_parse : string -> parse_outcome) (splitlines : string -> list string)
    (req : AnalyzeRequest) :
  let result := analyze ast_parse splitlines req in
  match ast_parse (code req) with
  | RaisesSyntaxError lineno msg =>
      function_count (summary result) = 0 /\
      hotspot_count (summary result) = 0 /\
      hotspots result = [] /\
      error result =
        Some ("SyntaxError at line " +:+ str_opt_int lineno +:+ ": " +:+ msg)
  | RaisesException str =>
      function_count (summary result) = 0 /\
      hotspot_count (summary result) = 0 /\
      hotspots result = [] /\
      error result = Some ("Invalid Python code: " +:+ str)
  | Parsed _ => error result = None
  end.
Proof.
  cbv zeta. unfold analyze. destruct (ast_parse (code req)); simpl; auto.
Qed.

(** ** Labels collected over a walk *)

Section Collect.
Context {A : Type} (step : list string -> A -> list string).
Hypothesis step_appends : forall acc a, step acc a = acc ++ step [] a.

Lemma foldl_step_app l acc : foldl step acc l = acc ++ foldl step [] l.
Proof.
  revert acc. induction l as [|a l IH]; intros acc; simpl.
  - by rewrite app_nil_r.
  - rewrite IH, (IH (step [] a)), step_appends. by rewrite app_assoc.
Qed.

Lemma elem_of_foldl_step l acc x :
  x ∈ foldl step acc l <-> x ∈ acc \/ exists a, a ∈ l /\ x ∈ step [] a.
Proof.
  revert acc. induction l as [|a l IH]; intros acc; simpl.
  - split; [by left | intros [? | (? & ?%elem_of_nil & _)]; done].
  - rewrite IH, step_appends, elem_of_app. split.
    + intros [[? | ?] | (b & Hb & Hx)]; [by left | |].
      * right. exists a. split; [left | done].
      * right. exists b. split; [by right | done].
    + intros [? | (b & [-> | Hb]%elem_of_cons & Hx)]; eauto.
Qed.
End Collect.

Lemma list_of_set_NoDup found : NoDup (list_of_set found).
Proof. unfold list_of_set. apply NoDup_elements. Qed.

Lemma elem_of_list_of_set found x : x ∈ list_of_set found <-> x ∈ found.
Proof. unfold list_of_set. by rewrite elem_of_elements, elem_of_list_to_set. Qed.

Lemma expensive_step_appends found n :
  expensive_step found n = found ++ expensive_step [] n.
Proof.
  destruct n as [| | |func args| | | |]; simpl; rewrite ?app_nil_r; try done.
  destruct func; simpl; rewrite ?app_nil_r; try done;
    case_bool_decide; by rewrite ?app_nil_r.
Qed.

Lemma elem_of_expensive_step label n :
  label ∈ expensive_step [] n <->
  (label ∈ EXPENSIVE_FUNCS /\ exists args, n = Call (Name label) args) \/
  (label = "sort()" /\ exists receiver args,
      n = Call (Attribute receiver "sort") args).
Proof.
  split.
  - destruct n as [| | |func args| | | |]; simpl; try by intros ?%elem_of_nil.
    destruct func; simpl; try (by intros ?%elem_of_nil);
      case_bool_decide; try (by intros ?%elem_of_nil);
      intros ->%list_elem_of_singleton; subst; eauto.
  - intros [(Hexp & args & ->) | (-> & receiver & args & ->)]; simpl.
    + rewrite bool_decide_eq_true_2 by done. left.
    + left.
Qed.

Lemma issue_step_appends issues n :
  issue_step issues n = issues ++ issue_step [] n.
Proof.
  unfold issue_step.
  destruct n as [| | |func args| | |t op v|]; rewrite ?app_nil_r; try done.
  - destruct func; rewrite ?app_nil_r; try done.
    case_bool_decide; by rewrite ?app_nil_r.
  - destruct op; by rewrite ?app_nil_r.
Qed.

Lemma elem_of_issue_step label n :
  label ∈ issue_step [] n <->
  (label = CONCAT_ISSUE /\ exists target value, n = AugAssign target Add value) \/
  (label = APPEND_ISSUE /\ exists receiver args,
      n = Call (Attribute receiver "append") args).
Proof.
  unfold issue_step. split.
  - destruct n as [| | |func args| | |t op v|]; try by intros ?%elem_of_nil.
    + destruct func; try (by intros ?%elem_of_nil).
      case_bool_decide; try (by intros ?%elem_of_nil).
      intros ->%list_elem_of_singleton; subst; eauto.
    + destruct op; try (by intros ?%elem_of_nil).
      intros ->%list_elem_of_singleton; eauto.
  - intros [(-> & t & v & ->) | (-> & receiver & args & ->)]; simpl; left.
Qed.

Lemma loop_step_appends issues n :
  loop_step issues n = issues ++ loop_step [] n.
Proof.
  unfold loop_step. destruct (is_loop n); [|by rewrite app_nil_r].
  apply foldl_step_app, issue_step_appends.
Qed.

Lemma elem_of_detect_loop_issues label func_node :
  label ∈ detect_loop_issues func_node <->
  exists loop n, is_loop loop = true /\ subnode loop func_node /\
                 subnode n loop /\ label ∈ issue_step [] n.
Proof.
  unfold detect_loop_issues.
  rewrite elem_of_list_of_set, (elem_of_foldl_step _ loop_step_appends).
  split.
  - intros [?%elem_of_nil | (loop & Hloop%elem_of_walk & Hl)]; [done |].
    unfold loop_step in Hl. destruct (is_loop loop) eqn:E;
      [|by apply elem_of_nil in Hl].
    apply (elem_of_foldl_step _ issue_step_appends) in Hl
      as [?%elem_of_nil | (n & Hn%elem_of_walk & Hl)]; [done |].
    by exists loop, n.
  - intros (loop & n & E & Hloop & Hn & Hl). right. exists loop.
    split; [by apply elem_of_walk |]. unfold loop_step. rewrite E.
    apply (elem_of_foldl_step _ issue_step_appends). right.
    exists n. split; [by apply elem_of_walk | done].
Qed.

Lemma calls_name_true fname n :
  calls_name fname n = true <-> exists args, n = Call (Name fname) args.
Proof.
  split.
  - destruct n as [| | |func args| | | |]; try discriminate.
    destruct func; try discriminate. simpl.
    intros ->%bool_decide_eq_true. eauto.
  - intros (args & ->). simpl. by apply bool_decide_eq_true.
Qed.

(** ** The detectors' results *)

(** C7: [detect_expensive_calls] returns, without duplicates, exactly the
    names in [{sorted, open, print}] called as bare identifiers somewhere in
    the function, and ["sort()"] when some call goes through an attribute
    named [sort], whatever the receiver; two calls of [sorted] give the one
    label ["sorted"] and add 15 to the score. *)
Theorem expensive_calls_are_the_distinct_matches (func_node : node) :
  NoDup (detect_expensive_calls func_node) /\
  (forall label,
      label ∈ detect_expensive_calls func_node <->
      (label ∈ EXPENSIVE_FUNCS /\
       exists args, subnode (Call (Name label) args) func_node) \/
      (label = "sort()" /\
       exists receiver args,
         subnode (Call (Attribute receiver "sort") args) func_node)) /\
  (forall label, label ∈ EXPENSIVE_FUNCS <->
                 label = "sorted" \/ label = "open" \/ label = "print") /\
  detect_expensive_calls sorts_twice = ["sorted"] /\
  score (hotspot_of [] sorts_twice) = 15.
Proof.
  split; [apply list_of_set_NoDup |].
  split; [|split; [|split; vm_compute; reflexivity]].
  - intros label. unfold detect_expensive_calls.
    rewrite elem_of_list_of_set, (elem_of_foldl_step _ expensive_step_appends).
    split.
    + intros [?%elem_of_nil | (n & Hn%elem_of_walk & Hl)]; [done |].
      apply elem_of_expensive_step in Hl
        as [(Hexp & args & ->) | (-> & receiver & args & ->)]; eauto 6.
    + intros [(Hexp & args & Hn) | (-> & receiver & args & Hn)];
        right; eexists; (split; [by apply elem_of_walk |]);
        apply elem_of_expensive_step; eauto 6.
  - intros label. unfold EXPENSIVE_FUNCS.
    rewrite !elem_of_union, !elem_of_singleton. tauto.
Qed.

(** C8: [detect_loop_issues] reports, each at most once, the concatenation
    label when an augmented assignment with [+] lies in the subtree of some
    [For] or [While] of the function, and the append label when a call
    through an attribute named [append] does; nothing else is reported, and
    nothing at all in a function without loops. *)
Theorem loop_issues_are_the_distinct_patterns (func_node : node) :
  NoDup (detect_loop_issues func_node) /\
  (CONCAT_ISSUE ∈ detect_loop_issues func_node <->
   exists loop target value,
     is_loop loop = true /\ subnode loop func_node /\
     subnode (AugAssign target Add value) loop) /\
  (APPEND_ISSUE ∈ detect_loop_issues func_node <->
   exists loop receiver args,
     is_loop loop = true /\ subnode loop func_node /\
     subnode (Call (Attribute receiver "append") args) loop) /\
  (forall label, label ∈ detect_loop_issues func_node ->
                 label = CONCAT_ISSUE \/ label = APPEND_ISSUE) /\
  ((forall n, subnode n func_node -> is_loop n = false) ->
   detect_loop_issues func_node = []) /\
  detect_loop_issues nested_append = [APPEND_ISSUE] /\
  get_max_loop_depth nested_append = 2 /\
  score (hotspot_of [] nested_append) = 34 /\
  category (hotspot_of [] nested_append) = "CPU".
Proof.
  split; [apply list_of_set_NoDup |].
  split; [|split; [|split; [|split]]].
  - rewrite elem_of_detect_loop_issues. split.
    + intros (loop & n & E & Hloop & Hn & Hl).
      apply elem_of_issue_step in Hl
        as [(_ & t & v & ->) | (Heq & _)]; [by eauto 8 | discriminate].
    + intros (loop & t & v & E & Hloop & Hn). exists loop, (AugAssign t Add v).
      repeat (split; [done |]). apply elem_of_issue_step. eauto.
  - rewrite elem_of_detect_loop_issues. split.
    + intros (loop & n & E & Hloop & Hn & Hl).
      apply elem_of_issue_step in Hl
        as [(Heq & _) | (_ & r & a & ->)]; [discriminate | by eauto 8].
    + intros (loop & r & a & E & Hloop & Hn).
      exists loop, (Call (Attribute r "append") a).
      repeat (split; [done |]). apply elem_of_issue_step. eauto 6.
  - intros label (loop & n & _ & _ & _ & Hl)%elem_of_detect_loop_issues.
    apply elem_of_issue_step in Hl as [(-> & _) | (-> & _)]; auto.
  - intros Hno. apply elem_of_nil_inv.
    intros label (loop & n & E & Hloop & _)%elem_of_detect_loop_issues.
    rewrite (Hno loop Hloop) in E. discriminate.
  - repeat split; vm_compute; reflexivity.
Qed.

(** C9: [is_recursive] holds exactly when the function's subtree has a call
    whose callee is the bare identifier of the function's own name; a call
    whose callee is an attribute access never counts, whatever the attribute
    is called. *)
Theorem is_recursive_iff_bare_self_call
    (name : string) (lineno end_lineno : option Z) (body : list node) :
  let func_node := FunctionDef name lineno end_lineno body in
  (is_recursive func_node = true <->
   exists args, subnode (Call (Name name) args) func_node) /\
  (forall receiver attr args,
      calls_name name (Call (Attribute receiver attr) args) = false) /\
  (forall other args, other <> name ->
      calls_name name (Call (Name other) args) = false) /\
  is_recursive calls_itself = true /\
  is_recursive calls_method = false.
Proof.
  cbv zeta. split; [|split; [done |split; [|split; vm_compute; reflexivity]]].
  - unfold is_recursive. simpl node_name. rewrite existsb_exists. split.
    + intros (n & Hn%list_elem_of_In%elem_of_walk & (args & ->)%calls_name_true).
      eauto.
    + intros (args & Hn). exists (Call (Name name) args). split.
      * by apply list_elem_of_In, elem_of_walk.
      * apply calls_name_true. eauto.
  - intros other args Hne. simpl. by apply bool_decide_eq_false.
Qed.

(** ** Energy and cost *)

Lemma forallb_seqZ (f : Z -> bool) (lo len z : Z) :
  forallb f (seqZ lo len) = true -> lo <= z < lo + len -> f z = true.
Proof.
  intros Hall Hz. rewrite forallb_forall in Hall.
  apply Hall, list_elem_of_In, elem_of_seqZ. exact Hz.
Qed.

Lemma energy_table_checked : forallb energy_row_ok (seqZ 0 101) = true.
Proof. vm_compute. reflexivity. Qed.

Lemma energy_table s1 s2 :
  0 <= s1 <= s2 -> s2 <= 100 ->
  energy_defined s1 = true /\ energy_leb (energy_of s1) (energy_of s2) = true.
Proof.
  intros H1 H2.
  pose proof (forallb_seqZ _ _ _ s1 energy_table_checked ltac:(lia)) as Hrow.
  unfold energy_row_ok in Hrow. cbv zeta in Hrow.
  apply andb_true_iff in Hrow as [Hdef Hle].
  split; [exact Hdef |].
  pose proof (forallb_seqZ _ _ _ s2 Hle ltac:(lia)) as Hpair.
  simpl in Hpair. destruct (s2 <? s1) eqn:Hlt; [|exact Hpair].
  apply Z.ltb_lt in Hlt. lia.
Qed.

(** C10: the energy and cost fields of a hotspot are the stated roundings of
    its score; for integer scores from 0 to 100 every step is defined with a
    finite result, and joules, cost per run, cost per 1000 runs and cost per
    million runs do not decrease when the score grows. *)
Theorem energy_fields_follow_score
    (code_lines : list string) (func : node) (s1 s2 : Z) :
  0 <= s1 <= s2 -> s2 <= 100 ->
  let h := hotspot_of code_lines func in
  let cost :=
    (estimated_joules_per_run h / float_of_int 3600000 * 8)%float in
  (estimated_joules_per_run h =
     py_round (float_of_int (score h) * 0x1.999999999999ap-5)%float 4 /\
   estimated_cost_per_1000_runs h =
     py_round (cost * float_of_int 1000)%float 6 /\
   estimated_cost_per_1m_runs h =
     py_round (cost * float_of_int 1000000)%float 4) /\
  energy_defined s1 = true /\
  (PrimFloat.leb (joules_per_run s1) (joules_per_run s2) = true /\
   PrimFloat.leb (cost_per_run (joules_per_run s1))
                 (cost_per_run (joules_per_run s2)) = true /\
   PrimFloat.leb (cost_per_1000_runs (cost_per_run (joules_per_run s1)))
                 (cost_per_1000_runs (cost_per_run (joules_per_run s2))) = true /\
   PrimFloat.leb (cost_per_1m_runs (cost_per_run (joules_per_run s1)))
                 (cost_per_1m_runs (cost_per_run (joules_per_run s2))) = true).
Proof.
  intros H1 H2. cbv zeta.
  split; [repeat split |].
  destruct (energy_table s1 s2 H1 H2) as [Hdef Hle].
  split; [exact Hdef |].
  unfold energy_leb, energy_of in Hle. rewrite !andb_true_iff in Hle. tauto.
Qed.

(** Scores 34 and 100: 1.7 joules against 5 joules. *)
Lemma energy_fields_follow_score_witness :
  PrimFloat.leb (joules_per_run 34) (joules_per_run 100) = true /\
  joules_per_run 100 = 5%float.
Proof.
  split; [|vm_compute; reflexivity].
  exact (proj1 (proj2 (proj2
    (energy_fields_follow_score [] nested_append 34 100
       ltac:(lia) ltac:(lia))))).
Defined.

(** * Further properties of the analysis *)

(** ** Loop depth, computed from the children *)

Lemma visit_as_max n d m :
  d <= m -> visit n d m = Z.max m (d + get_max_loop_depth n).
Proof.
  intros Hdm. destruct (visit_sound n d m Hdm) as (Hm & Hup & Hex).
  destruct (get_max_loop_depth_reached n) as (p & Hp & Hg).
  pose proof (Hup p Hp) as Hlow.
  destruct Hex as [Heq | (p' & Hp' & Heq)]; [lia |].
  pose proof (get_max_loop_depth_upper n p' Hp'). lia.
Qed.

Lemma max_depth_of_nonneg cs : 0 <= max_depth_of cs.
Proof. induction cs as [|c cs IH]; simpl; lia. Qed.

Lemma foldl_visit_as_max cs d m :
  d <= m ->
  foldl (fun max_depth child => visit child d max_depth) m cs
  = Z.max m (d + max_depth_of cs).
Proof.
  revert m. induction cs as [|c cs IH]; intros m Hdm; simpl; [lia |].
  rewrite (visit_as_max c d m Hdm), IH by lia. lia.
Qed.

(** X1: the loop depth of a node is the largest loop depth among its
    children, plus one when the node itself is a [For] or [While]. *)
Theorem get_max_loop_depth_from_children (n : node) :
  get_max_loop_depth n
  = (if is_loop n then 1 else 0) + max_depth_of (iter_child_nodes n).
Proof.
  unfold get_max_loop_depth at 1. rewrite visit_children. cbv zeta.
  pose proof (max_depth_of_nonneg (iter_child_nodes n)).
  destruct (is_loop n); rewrite foldl_visit_as_max by lia; lia.
Qed.

Lemma subnode_path n t : subnode n t -> exists q, path t (q ++ [n]).
Proof. intros Hn. apply (path_extend n t [n] Hn). constructor. Qed.

Lemma loop_subnode_depth n t :
  subnode n t -> is_loop n = true -> 1 <= get_max_loop_depth t.
Proof.
  intros (q & Hq)%subnode_path Hloop.
  pose proof (get_max_loop_depth_upper _ _ Hq) as Hle.
  rewrite loops_on_app, loops_on_cons, Hloop in Hle.
  pose proof (loops_on_nonneg q). pose proof (loops_on_nonneg []). lia.
Qed.

(** X2: the loop depth is 0 exactly when the subtree holds no [For] and no
    [While] node, and at least 1 otherwise. *)
Theorem loop_depth_zero_iff_no_loop (func_node : node) :
  (get_max_loop_depth func_node = 0 <->
   forall n, subnode n func_node -> is_loop n = false) /\
  (1 <= get_max_loop_depth func_node <->
   exists n, subnode n func_node /\ is_loop n = true).
Proof.
  assert (Hzero : (forall n, subnode n func_node -> is_loop n = false) ->
                  get_max_loop_depth func_node = 0).
  { intros Hno. destruct (get_max_loop_depth_reached func_node) as (p & Hp & <-).
    apply loops_on_zero. intros n Hn. eapply Hno, path_subnode; eauto. }
  assert (Hone : forall n, subnode n func_node -> is_loop n = true ->
                           1 <= get_max_loop_depth func_node)
    by (intros n; apply loop_subnode_depth).
  split; split.
  - intros H0 n Hn. destruct (is_loop n) eqn:E; [|done].
    specialize (Hone n Hn E). lia.
  - exact Hzero.
  - intros H1. destruct (get_max_loop_depth_reached func_node) as (p & Hp & Hg).
    destruct (decide (Exists (fun n => is_loop n = true) p)) as [Hex | Hnex].
    + apply Exists_exists in Hex as (n & Hn & Hl). exists n.
      split; [eapply path_subnode; eauto | done].
    + exfalso. rewrite (loops_on_zero p) in Hg; [lia |].
      intros n Hn. destruct (is_loop n) eqn:E; [|done].
      exfalso. apply Hnex, Exists_exists. eauto.
  - intros (n & Hn & Hl). eauto.
Qed.

(** ** What the label lists can hold *)

Lemma elem_of_detect_expensive_calls label func_node :
  label ∈ detect_expensive_calls func_node <->
  exists n, subnode n func_node /\ label ∈ expensive_step [] n.
Proof.
  unfold detect_expensive_calls.
  rewrite elem_of_list_of_set, (elem_of_foldl_step _ expensive_step_appends).
  split.
  - intros [?%elem_of_nil | (n & Hn%elem_of_walk & Hl)]; [done | eauto].
  - intros (n & Hn & Hl). right. exists n. by rewrite elem_of_walk.
Qed.

Lemma expensive_step_labels label n :
  label ∈ expensive_step [] n -> label ∈ EXPENSIVE_LABELS.
Proof.
  intros [(Hexp & _) | (-> & _)]%elem_of_expensive_step.
  - unfold EXPENSIVE_FUNCS in Hexp.
    rewrite !elem_of_union, !elem_of_singleton in Hexp.
    unfold EXPENSIVE_LABELS. destruct Hexp as [[-> | ->] | ->];
      repeat first [by left | right].
  - unfold EXPENSIVE_LABELS. repeat first [by left | right].
Qed.

Lemma issue_step_labels label n :
  label ∈ issue_step [] n -> label ∈ [CONCAT_ISSUE; APPEND_ISSUE].
Proof.
  intros [(-> & _) | (-> & _)]%elem_of_issue_step;
    repeat first [by left | right].
Qed.

Lemma NoDup_within_length (l k : list string) :
  NoDup l -> (forall x, x ∈ l -> x ∈ k) -> (length l <= length k)%nat.
Proof. intros Hl Hin. by apply submseteq_length, NoDup_submseteq. Qed.

Lemma detect_expensive_calls_length func_node :
  (length (detect_expensive_calls func_node) <= 4)%nat.
Proof.
  apply (NoDup_within_length _ EXPENSIVE_LABELS); [apply list_of_set_NoDup |].
  intros x (n & _ & Hx)%elem_of_detect_expensive_calls.
  by eapply expensive_step_labels.
Qed.

Lemma detect_loop_issues_length func_node :
  (length (detect_loop_issues func_node) <= 2)%nat.
Proof.
  apply (NoDup_within_length _ [CONCAT_ISSUE; APPEND_ISSUE]);
    [apply list_of_set_NoDup |].
  intros x (loop & n & _ & _ & _ & Hx)%elem_of_detect_loop_issues.
  by eapply issue_step_labels.
Qed.

Lemma foldl_snoc_all {A} (acc l : list A) :
  foldl (fun acc x => acc ++ [x]) acc l = acc ++ l.
Proof.
  revert acc. induction l as [|x l IH]; intros acc; simpl.
  - by rewrite app_nil_r.
  - by rewrite IH, <- app_assoc.
Qed.

(** The reasons, piece by piece. *)
Lemma build_reasons_pieces d r (e i : list string) :
  build_reasons d r e i =
  (if 0 <? d then ["Loop nesting depth = " +:+ pretty d] else [])
  ++ (if r then ["Recursion detected"] else [])
  ++ match e with
     | [] => []
     | _ => ["Expensive calls: " +:+ String.concat ", " e]
     end
  ++ i.
Proof.
  unfold build_reasons. rewrite foldl_snoc_all.
  destruct (0 <? d), r, e; reflexivity.
Qed.

(** X3: a function has at most four expensive-call labels and at most two
    loop-issue labels, hence at most five reasons. *)
Theorem label_lists_are_short (code_lines : list string) (func : node) :
  (length (detect_expensive_calls func) <= 4)%nat /\
  (length (detect_loop_issues func) <= 2)%nat /\
  (length (reasons (hotspot_of code_lines func)) <= 5)%nat /\
  (forall label, label ∈ detect_expensive_calls func ->
                 label ∈ EXPENSIVE_LABELS).
Proof.
  pose proof (detect_expensive_calls_length func) as He.
  pose proof (detect_loop_issues_length func) as Hi.
  split; [done |]. split; [done |]. split.
  - unfold hotspot_of; simpl. rewrite build_reasons_pieces.
    rewrite !length_app.
    destruct (0 <? get_max_loop_depth func), (is_recursive func),
      (detect_expensive_calls func); simpl in *; lia.
  - intros label (n & _ & Hl)%elem_of_detect_expensive_calls.
    by eapply expensive_step_labels.
Qed.

(** ** How the signals of one function hang together *)

Lemma hotspot_score_range code_lines func :
  0 <= score (hotspot_of code_lines func) <= 100.
Proof.
  pose proof (get_max_loop_depth_nonneg func).
  unfold hotspot_of, compute_score; simpl.
  destruct (is_recursive func); lia.
Qed.

(** X4: a function with a loop issue has loop depth at least 1, and so
    scores at least 22. *)
Theorem loop_issue_needs_a_loop (code_lines : list string) (func : node) :
  detect_loop_issues func <> [] ->
  1 <= get_max_loop_depth func /\ 22 <= score (hotspot_of code_lines func).
Proof.
  intros Hne.
  assert (Hd : 1 <= get_max_loop_depth func).
  { destruct (detect_loop_issues func) as [|label l] eqn:E; [done |].
    assert (Hin : label ∈ detect_loop_issues func) by (rewrite E; left).
    apply elem_of_detect_loop_issues in Hin as (loop & n & Hl & Hloop & _).
    by eapply loop_subnode_depth. }
  split; [exact Hd |].
  pose proof (detect_loop_issues_length func).
  unfold hotspot_of, compute_score; simpl.
  destruct (detect_loop_issues func); [done |].
  destruct (is_recursive func); simpl length; lia.
Qed.

Lemma loop_issue_needs_a_loop_witness :
  1 <= get_max_loop_depth nested_append /\
  22 <= score (hotspot_of [] nested_append).
Proof.
  apply (loop_issue_needs_a_loop [] nested_append).
  vm_compute. discriminate.
Defined.

(** X5: what is found in a nested node is found in every node around it:
    the expensive-call labels and the loop issues of a subtree are among
    those of the enclosing function. *)
Theorem nested_findings_count_outside (inner outer : node) :
  subnode inner outer ->
  (forall label, label ∈ detect_expensive_calls inner ->
                 label ∈ detect_expensive_calls outer) /\
  (forall label, label ∈ detect_loop_issues inner ->
                 label ∈ detect_loop_issues outer) /\
  (length (detect_expensive_calls inner)
   <= length (detect_expensive_calls outer))%nat /\
  (length (detect_loop_issues inner) <= length (detect_loop_issues outer))%nat.
Proof.
  intros Hsub.
  assert (He : forall label, label ∈ detect_expensive_calls inner ->
                             label ∈ detect_expensive_calls outer).
  { intros label (n & Hn & Hl)%elem_of_detect_expensive_calls.
    apply elem_of_detect_expensive_calls. eauto using subnode_trans. }
  assert (Hi : forall label, label ∈ detect_loop_issues inner ->
                             label ∈ detect_loop_issues outer).
  { intros label (loop & n & E & Hloop & Hn & Hl)%elem_of_detect_loop_issues.
    apply elem_of_detect_loop_issues. exists loop, n.
    eauto using subnode_trans. }
  split; [exact He |]. split; [exact Hi |]. split.
  - apply NoDup_within_length; [apply list_of_set_NoDup | exact He].
  - apply NoDup_within_length; [apply list_of_set_NoDup | exact Hi].
Qed.

Lemma nested_findings_count_outside_witness :
  (length (detect_loop_issues inner_def)
   <= length (detect_loop_issues loop_in_inner_def))%nat.
Proof.
  refine (proj2 (proj2 (proj2
    (nested_findings_count_outside inner_def loop_in_inner_def _)))).
  eapply subnode_child; [|apply subnode_self]. right. left.
Defined.

(** X6: a hotspot has score 0 exactly when it has no reasons. *)
Theorem score_zero_iff_no_reasons (code_lines : list string) (func : node) :
  score (hotspot_of code_lines func) = 0 <->
  reasons (hotspot_of code_lines func) = [].
Proof.
  pose proof (get_max_loop_depth_nonneg func) as Hd.
  unfold hotspot_of; simpl. rewrite build_reasons_pieces. unfold compute_score.
  destruct (0 <? get_max_loop_depth func) eqn:Hpos.
  - apply Z.ltb_lt in Hpos. split; [|discriminate].
    destruct (is_recursive func); lia.
  - apply Z.ltb_ge in Hpos.
    destruct (is_recursive func); [split; [lia | discriminate] |].
    destruct (detect_expensive_calls func) as [|e es];
      [|split; [simpl length; lia | discriminate]].
    destruct (detect_loop_issues func) as [|i rest];
      [split; [done | simpl; lia] |].
    split; [simpl length; lia | discriminate].
Qed.

(** X7: the reasons say "Recursion detected" exactly when the function is
    recursive, and they list every loop issue. *)
Theorem reasons_report_recursion_and_issues
    (code_lines : list string) (func : node) :
  ("Recursion detected" ∈ reasons (hotspot_of code_lines func) <->
   is_recursive func = true) /\
  (forall issue, issue ∈ detect_loop_issues func ->
                 issue ∈ reasons (hotspot_of code_lines func)).
Proof.
  unfold hotspot_of; simpl. rewrite build_reasons_pieces. split.
  - rewrite !elem_of_app. split.
    + intros [Hd | [Hr | [He | Hi]]].
      * destruct (0 <? _); [|by apply elem_of_nil in Hd].
        apply list_elem_of_singleton in Hd. discriminate.
      * destruct (is_recursive func); [done | by apply elem_of_nil in Hr].
      * destruct (detect_expensive_calls func); [by apply elem_of_nil in He |].
        apply list_elem_of_singleton in He. discriminate.
      * apply elem_of_detect_loop_issues in Hi as (_ & n & _ & _ & _ & Hl).
        apply issue_step_labels in Hl.
        repeat (apply elem_of_cons in Hl as [Hl | Hl]); try discriminate.
        by apply elem_of_nil in Hl.
    + intros ->. right. left. left.
  - intros issue Hi. rewrite !elem_of_app. auto.
Qed.

(** X8: a function of category "I/O" scores at least 15 and names its
    expensive calls among the reasons. *)
Theorem io_category_scores_at_least_15
    (code_lines : list string) (func : node) :
  category (hotspot_of code_lines func) = "I/O" ->
  15 <= score (hotspot_of code_lines func) /\
  "Expensive calls: " +:+ String.concat ", " (detect_expensive_calls func)
    ∈ reasons (hotspot_of code_lines func).
Proof.
  pose proof (get_max_loop_depth_nonneg func) as Hd.
  unfold hotspot_of; simpl. rewrite build_reasons_pieces.
  unfold choose_category, compute_score. case_bool_decide as Hopen.
  - intros _. destruct (detect_expensive_calls func) as [|e es];
      [by apply elem_of_nil in Hopen |].
    split; [destruct (is_recursive func); simpl length; lia |].
    rewrite !elem_of_app. right. right. left. left.
  - by destruct (_ || _ || _ || _).
Qed.

Lemma io_category_scores_at_least_15_witness :
  15 <= score (hotspot_of [] reads_file).
Proof.
  refine (proj1 (io_category_scores_at_least_15 [] reads_file _)).
  vm_compute. reflexivity.
Defined.

(** X9: a function without loops never scores above 80, and never above 60
    when it is not recursive either. *)
Theorem loop_free_score_at_most_80 (code_lines : list string) (func : node) :
  get_max_loop_depth func = 0 ->
  score (hotspot_of code_lines func) <= 80 /\
  (is_recursive func = false -> score (hotspot_of code_lines func) <= 60).
Proof.
  intros Hd.
  assert (Hi : detect_loop_issues func = []).
  { destruct (detect_loop_issues func) as [|label l] eqn:E; [done |].
    assert (Hin : label ∈ detect_loop_issues func) by (rewrite E; left).
    apply elem_of_detect_loop_issues in Hin as (loop & n & Hl & Hloop & _).
    pose proof (loop_subnode_depth _ _ Hloop Hl). lia. }
  pose proof (detect_expensive_calls_length func) as He.
  unfold hotspot_of, compute_score; simpl. rewrite Hd, Hi. simpl length.
  split; [destruct (is_recursive func); lia |]. intros ->. lia.
Qed.

Lemma loop_free_score_at_most_80_witness :
  score (hotspot_of [] calls_itself) <= 80.
Proof.
  refine (proj1 (loop_free_score_at_most_80 [] calls_itself _)).
  reflexivity.
Defined.

Lemma get_max_loop_depth_subnode inner outer :
  subnode inner outer -> get_max_loop_depth inner <= get_max_loop_depth outer.
Proof.
  intros Hsub. destruct (get_max_loop_depth_reached inner) as (p & Hp & <-).
  destruct (path_extend _ _ _ Hsub Hp) as (q & Hq).
  pose proof (get_max_loop_depth_upper _ _ Hq) as Hle.
  rewrite loops_on_app in Hle. pose proof (loops_on_nonneg q). lia.
Qed.

(** X10: a function scores at least as high as any function nested in it,
    unless the nested one is recursive and the enclosing one is not. *)
Theorem enclosing_function_scores_no_less
    (code_lines : list string) (inner outer : node) :
  subnode inner outer ->
  (is_recursive inner = true -> is_recursive outer = true) ->
  score (hotspot_of code_lines inner) <= score (hotspot_of code_lines outer).
Proof.
  intros Hsub Hrec.
  pose proof (get_max_loop_depth_subnode _ _ Hsub) as Hd.
  assert (He : (length (detect_expensive_calls inner)
                <= length (detect_expensive_calls outer))%nat).
  { apply NoDup_within_length; [apply list_of_set_NoDup |].
    intros label (n & Hn & Hl)%elem_of_detect_expensive_calls.
    apply elem_of_detect_expensive_calls. eauto using subnode_trans. }
  assert (Hi : (length (detect_loop_issues inner)
                <= length (detect_loop_issues outer))%nat).
  { apply NoDup_within_length; [apply list_of_set_NoDup |].
    intros label (loop & n & E & Hloop & Hn & Hl)%elem_of_detect_loop_issues.
    apply elem_of_detect_loop_issues. exists loop, n.
    eauto using subnode_trans. }
  unfold hotspot_of, compute_score; simpl.
  destruct (is_recursive inner), (is_recursive outer);
    try (specialize (Hrec eq_refl); discriminate); lia.
Qed.

Lemma enclosing_function_scores_no_less_witness :
  score (hotspot_of [] inner_def) <= score (hotspot_of [] loop_in_inner_def).
Proof.
  apply (enclosing_function_scores_no_less [] inner_def loop_in_inner_def).
  - eapply subnode_child; [|apply subnode_self]. right. left.
  - vm_compute. discriminate.
Defined.

(** ** The code snippet *)

Lemma py_slice_in_range {A} (l : list A) (lo hi : Z) :
  0 <= lo <= hi -> hi <= Z.of_nat (length l) ->
  py_slice l lo hi = take (Z.to_nat (hi - lo)) (drop (Z.to_nat lo) l).
Proof.
  intros Hlo Hhi. unfold py_slice, slice_bound. cbv zeta.
  destruct (lo <? 0) eqn:E1; [apply Z.ltb_lt in E1; lia |].
  destruct (hi <? 0) eqn:E2; [apply Z.ltb_lt in E2; lia |].
  by rewrite !Z.min_l by lia.
Qed.


(** X11: for a function whose lines [s..e] lie within the text, the snippet
    joins exactly the [e - s + 1] source lines numbered [s] to [e]
    (counting from 1), and the hotspot reports that span. *)
Theorem snippet_is_the_lines_of_the_function
    (code_lines : list string) (name : string) (s e : Z) (cs : list node) :
  1 <= s <= e -> e <= Z.of_nat (length code_lines) ->
  let h := hotspot_of code_lines (FunctionDef name (Some s) (Some e) cs) in
  let lines := py_slice code_lines (s - 1) e in
  start_line h = s /\ end_line h = e /\
  code_snippet h = String.concat NEWLINE lines /\
  Z.of_nat (length lines) = e - s + 1 /\
  (forall i : nat, (i < length lines)%nat ->
     lines !! i = code_lines !! (Z.to_nat (s - 1) + i)%nat).
Proof.
  intros Hs He. cbv zeta. repeat (split; [reflexivity |]).
  rewrite py_slice_in_range by lia.
  assert (Hlen : length (take (Z.to_nat (e - (s - 1)))
                              (drop (Z.to_nat (s - 1)) code_lines))
                 = Z.to_nat (e - (s - 1))).
  { rewrite length_take, length_drop. lia. }
  split; [rewrite Hlen; lia |].
  intros i Hi. rewrite Hlen in Hi.
  by rewrite lookup_take_lt, lookup_drop by lia.
Qed.

Lemma snippet_is_the_lines_of_the_function_witness :
  code_snippet (hotspot_of ["import os"; "def f(p):"; "    return open(p)"]
                           (FunctionDef "f" (Some 2) (Some 3) []))
  = "def f(p):" +:+ NEWLINE +:+ "    return open(p)".
Proof.
  rewrite (proj1 (proj2 (proj2
    (snippet_is_the_lines_of_the_function
       ["import os"; "def f(p):"; "    return open(p)"] "f" 2 3 []
       ltac:(lia) ltac:(simpl; lia))))).
  reflexivity.
Defined.



(** ** The response *)

Lemma elem_of_function_nodes n tree :
  n ∈ function_nodes tree <-> subnode n tree /\ is_def n.
Proof.
  unfold function_nodes. fold is_def.
  rewrite list_elem_of_filter, elem_of_walk. tauto.
Qed.

(** X13: in a successful response the hotspots are the records of the
    function definitions of the tree, nested ones included, every score lies
    between 0 and 100, and no hotspot scores higher than the first one. *)
Theorem first_hotspot_scores_highest
    (ast_parse : string -> parse_outcome) (splitlines : string -> list string)
    (req : AnalyzeRequest) (tree : node) :
  ast_parse (code req) = Parsed tree ->
  let result := analyze ast_parse splitlines req in
  (forall h, h ∈ hotspots result ->
     0 <= score h <= 100 /\
     exists func, subnode func tree /\ is_def func /\
                  h = hotspot_of (splitlines (code req)) func) /\
  (forall func, subnode func tree -> is_def func ->
     hotspot_of (splitlines (code req)) func ∈ hotspots result) /\
  (forall first rest, hotspots result = first :: rest ->
     forall h, h ∈ hotspots result -> score h <= score first).
Proof.
  intros Hparse. cbv zeta. unfold analyze. rewrite Hparse. simpl.
  split; [|split].
  - intros h Hh. rewrite sort_reverse_perm in Hh.
    apply list_elem_of_fmap in Hh as (func & -> & Hf).
    split; [apply hotspot_score_range |].
    apply elem_of_function_nodes in Hf as [Hs Hd]. eauto.
  - intros func Hs Hd. rewrite sort_reverse_perm.
    apply list_elem_of_fmap. exists func.
    split; [done | by apply elem_of_function_nodes].
  - intros first rest Heq h Hh.
    pose proof (sort_reverse_descending score
      (map (hotspot_of (splitlines (code req))) (function_nodes tree))) as Hd.
    rewrite Heq in Hd, Hh. inversion Hd as [|? ? _ Hall]; subst.
    apply elem_of_cons in Hh as [-> | Hh]; [lia |].
    rewrite Forall_forall in Hall. by apply Hall.
Qed.

Lemma first_hotspot_scores_highest_witness :
  Forall (fun h => 0 <= score h <= 100)
    (hotspots (analyze (fun _ => Parsed two_levels) (fun _ => [])
                       {| code := "def a(): ..."; filename := None |})).
Proof.
  apply Forall_forall. intros h Hh.
  exact (proj1 (proj1 (first_hotspot_scores_highest
    (fun _ => Parsed two_levels) (fun _ => [])
    {| code := "def a(): ..."; filename := None |} two_levels eq_refl) h Hh)).
Defined.

(** X14: a successful response has no hotspots exactly when the tree holds
    no function definition, and then both counts are 0. *)
Theorem no_hotspots_iff_no_function
    (ast_parse : string -> parse_outcome) (splitlines : string -> list string)
    (req : AnalyzeRequest) (tree : node) :
  ast_parse (code req) = Parsed tree ->
  let result := analyze ast_parse splitlines req in
  (hotspots result = [] <-> forall n, subnode n tree -> ~ is_def n) /\
  (hotspots result = [] ->
   function_count (summary result) = 0 /\ hotspot_count (summary result) = 0).
Proof.
  intros Hparse. cbv zeta. unfold analyze. rewrite Hparse. simpl.
  set (records := map _ (function_nodes tree)).
  assert (Hnil : sort_reverse score records = [] <-> function_nodes tree = []).
  { rewrite <- !length_zero_iff_nil, sort_reverse_length.
    unfold records. by rewrite length_map. }
  split.
  - rewrite Hnil. split.
    + intros Hf n Hn Hd.
      assert (Hin : n ∈ function_nodes tree) by by apply elem_of_function_nodes.
      rewrite Hf in Hin. by apply elem_of_nil in Hin.
    + intros Hno. apply elem_of_nil_inv.
      intros n [Hs Hd]%elem_of_function_nodes. by apply (Hno n).
  - intros Hs. rewrite Hs. apply Hnil in Hs. by rewrite Hs.
Qed.

Lemma no_hotspots_iff_no_function_witness :
  hotspots (analyze (fun _ => Parsed (Other [Other [Name "x"]]))
                    (fun _ => ["x = 1"])
                    {| code := "x = 1"; filename := None |}) = [].
Proof.
  apply (proj1 (no_hotspots_iff_no_function
    (fun _ => Parsed (Other [Other [Name "x"]])) (fun _ => ["x = 1"])
    {| code := "x = 1"; filename := None |} _ eq_refl)).
  intros n Hn%elem_of_preorder Hd. vm_compute in Hn.
  repeat (apply elem_of_cons in Hn as [-> | Hn]); try discriminate Hd.
  by apply elem_of_nil in Hn.
Defined.

(** ** The size of the energy figures *)

Lemma energy_of_0 : energy_of 0 = (0, 0, 0, 0)%float.
Proof. vm_compute. reflexivity. Qed.

(** The figures at score 100: 5 joules, 0.011111 per 1000 runs and 11.1111
    per million runs. *)
Lemma energy_of_100 :
  energy_of 100
  = (5, 0x1.74d3b7ba75828p-17, 0x1.6c15d2d01c0cap-7, 0x1.638e219652bd4p+3)%float.
Proof. vm_compute. reflexivity. Qed.

Lemma energy_between s :
  0 <= s <= 100 ->
  energy_leb (0, 0, 0, 0)%float (energy_of s) = true /\
  energy_leb (energy_of s)
    (5, 0x1.74d3b7ba75828p-17, 0x1.6c15d2d01c0cap-7, 0x1.638e219652bd4p+3)%float
  = true.
Proof.
  intros Hs. rewrite <- energy_of_0, <- energy_of_100. split.
  - apply (energy_table 0 s); lia.
  - apply (energy_table s 100); lia.
Qed.

(** X15: whatever the function, its energy figures are bounded by those of
    score 100: joules lie between 0 and 5, the cost of 1000 runs between 0
    and 0.011111, the cost of a million runs between 0 and 11.1111. *)
Theorem energy_fields_bounded (code_lines : list string) (func : node) :
  let h := hotspot_of code_lines func in
  (PrimFloat.leb 0 (estimated_joules_per_run h) = true /\
   PrimFloat.leb (estimated_joules_per_run h) 5 = true) /\
  (PrimFloat.leb 0 (estimated_cost_per_1000_runs h) = true /\
   PrimFloat.leb (estimated_cost_per_1000_runs h) 0x1.6c15d2d01c0cap-7 = true) /\
  (PrimFloat.leb 0 (estimated_cost_per_1m_runs h) = true /\
   PrimFloat.leb (estimated_cost_per_1m_runs h) 0x1.638e219652bd4p+3 = true).
Proof.
  cbv zeta.
  destruct (energy_between _ (hotspot_score_range code_lines func)) as [Hlo Hhi].
  unfold energy_leb, energy_of in Hlo, Hhi.
  rewrite !andb_true_iff in Hlo, Hhi.
  unfold hotspot_of; simpl. tauto.
Qed.

Lemma joules_is_score_over_20 s :
  0 <= s <= 100 -> joules_per_run s = (float_of_int s / 20)%float.
Proof.
  intros Hs. assert (Hin : s ∈ seqZ 0 101) by (apply elem_of_seqZ; lia).
  vm_compute in Hin.
  repeat (apply elem_of_cons in Hin as [-> | Hin]);
    try (vm_compute; reflexivity).
  by apply elem_of_nil in Hin.
Qed.

(** X16: the joules figure of a hotspot is its score divided by 20, as a
    double: rounding to four digits removes the error of multiplying by the
    double 0.05. *)
Theorem joules_are_a_twentieth_of_the_score
    (code_lines : list string) (func : node) :
  let h := hotspot_of code_lines func in
  estimated_joules_per_run h = (float_of_int (score h) / 20)%float /\
  (float_of_int 3 * JOULES_PER_SCORE_POINT)%float <> (float_of_int 3 / 20)%float.
Proof.
  cbv zeta. split.
  - apply (joules_is_score_over_20 (score (hotspot_of code_lines func))).
    apply hotspot_score_range.
  - vm_compute. intros H.
    assert (E : Prim2SF 0x1.3333333333334p-3 = Prim2SF 0x1.3333333333333p-3)
      by (f_equal; exact H).
    vm_compute in E. discriminate E.
Qed.
